(** * go-emailaddress: shallow embedding of [emailaddress.go]

    Go strings are modelled as the sequence of their code points
    ([list N]): the [regexp] package decodes UTF-8 before matching, and
    every character class of the two patterns is ASCII, so a byte of an
    invalid sequence (decoded as U+FFFD) never belongs to a match.  The
    separator '@' is ASCII, so [strings.LastIndexByte] on the bytes and
    on the code points finds the same character. *)

From Stdlib Require Import Ascii String.
From Stdlib Require Import List Bool NArith ZArith Lia.
Import ListNotations.

Open Scope list_scope.

(** ** Go strings *)

Definition rune := N.
Definition gostring := list rune.

(** A Rocq string literal, read as the code points of an ASCII Go string. *)
Definition runes_of (s : string) : gostring :=
  map (fun a => N_of_ascii a) (list_ascii_of_string s).

Definition at_sign : rune := 64%N.

(** ** Character classes under [(?i)]

    A class is a list of inclusive ranges.  Under [(?i)] Go's parser adds
    every member of the simple case-folding orbit of each character
    (unicode.SimpleFold): for ASCII letters the other case, and for
    [k]/[K] also U+212A KELVIN SIGN, for [s]/[S] also U+017F LONG S. *)

Definition in_ranges (rs : list (N * N)) (c : rune) : bool :=
  existsb (fun '(lo, hi) => (lo <=? c)%N && (c <=? hi)%N) rs.

Definition fold_orbit (c : rune) : list rune :=
  if ((65 <=? c) && (c <=? 90))%N then
    (c + 32)%N :: (if (c =? 75)%N then [8490%N]
                   else if (c =? 83)%N then [383%N] else [])
  else if ((97 <=? c) && (c <=? 122))%N then
    (c - 32)%N :: (if (c =? 107)%N then [8490%N]
                   else if (c =? 115)%N then [383%N] else [])
  else if (c =? 8490)%N then [75%N; 107%N]
  else if (c =? 383)%N then [83%N; 115%N]
  else [].

Definition fold_class (rs : list (N * N)) (c : rune) : bool :=
  in_ranges rs c || existsb (in_ranges rs) (fold_orbit c).

(** ** Regular expressions (the subset of RE2 syntax the patterns use) *)

Inductive regex : Type :=
| Eps : regex
| Cls : list (N * N) -> regex              (* a character class, folded *)
| Cat : regex -> regex -> regex
| Alt : regex -> regex -> regex             (* [r1|r2], r1 preferred *)
| Star : regex -> regex                     (* greedy [r*] *)
| BeginText : regex                         (* [^] without (?m) *)
| EndText : regex.                          (* [$] without (?m) *)

Definition Lit (c : N) : regex := Cls [(c, c)].
Definition Plus (r : regex) : regex := Cat r (Star r).      (* greedy [r+] *)
Definition Opt (r : regex) : regex := Alt r Eps.            (* greedy [r?] *)
Definition Rep3 (r : regex) : regex := Cat r (Cat r r).     (* [r{3}] *)

(** The greedy star loop: try one more iteration of the body (which must
    consume input, as in RE2) before handing the text to [k].  The fuel
    [S (length s)] is never exhausted before the text is. *)
Fixpoint star_loop (m1 : gostring -> (gostring -> option gostring) -> option gostring)
         (k : gostring -> option gostring) (fuel : nat) (s : gostring)
  : option gostring :=
  match fuel with
  | O => k s
  | S fuel' =>
      match m1 s (fun s' => if length s' <? length s
                            then star_loop m1 k fuel' s' else None) with
      | Some x => Some x
      | None => k s
      end
  end.

(** Leftmost-first (Perl/RE2 priority) backtracking matcher in
    continuation-passing style.  [len0] is the length of the whole text
    (for [^]); [k] receives the rest of the text after the match of [r]
    and decides whether the overall match succeeds. *)
Fixpoint mtch (len0 : nat) (r : regex) (s : gostring)
         (k : gostring -> option gostring) {struct r} : option gostring :=
  match r with
  | Eps => k s
  | Cls rs =>
      match s with
      | c :: s' => if fold_class rs c then k s' else None
      | [] => None
      end
  | Cat r1 r2 => mtch len0 r1 s (fun s' => mtch len0 r2 s' k)
  | Alt r1 r2 =>
      match mtch len0 r1 s k with
      | Some x => Some x
      | None => mtch len0 r2 s k
      end
  | Star r1 => star_loop (mtch len0 r1) k (S (length s)) s
  | BeginText => if length s =? len0 then k s else None
  | EndText => match s with [] => k s | _ => None end
  end.

(** Leftmost-first search ([doExecute] from position [pos]): the first
    start position at which [r] matches, with the highest-priority match
    there.  Returns the skipped prefix, the match and the rest. *)
Fixpoint search_from (len0 : nat) (r : regex) (s : gostring)
  : option (gostring * gostring * gostring) :=
  match mtch len0 r s (fun rest => Some rest) with
  | Some rest => Some ([], firstn (length s - length rest) s, rest)
  | None =>
      match s with
      | [] => None
      | c :: s' =>
          match search_from len0 r s' with
          | Some (p, m, rest) => Some (c :: p, m, rest)
          | None => None
          end
      end
  end.

(** [Regexp.MatchString]: is there a match anywhere in [s]. *)
Definition MatchString (r : regex) (s : gostring) : bool :=
  match search_from (length s) r s with
  | Some _ => true
  | None => false
  end.

(** [Regexp.allMatches] as used by [FindAll(b, -1)]: after a match the
    search resumes at its end; an empty match at the resume position
    advances by one rune and is dropped when it touches the previous
    match.  [prev_end_here] says whether the previous match ended at the
    current position.  Each iteration consumes a rune or is the last, so
    the fuel [S (length b)] is never exhausted (Go's own bound, [n =
    len(b)+1] matches, is never reached either). *)
Fixpoint all_matches (len0 : nat) (r : regex) (fuel : nat)
         (prev_end_here : bool) (s : gostring) : list gostring :=
  match fuel with
  | O => []
  | S fuel' =>
      match search_from len0 r s with
      | None => []
      | Some (pre, m, rest) =>
          match pre, m with
          | [], [] =>
              let accepted := if prev_end_here then [] else [m] in
              match rest with
              | [] => accepted
              | _ :: rest' => accepted ++ all_matches len0 r fuel' false rest'
              end
          | _, _ => m :: all_matches len0 r fuel' true rest
          end
      end
  end.

Definition FindAll (r : regex) (b : gostring) : list gostring :=
  all_matches (length b) r (S (length b)) false b.

(** ** The two patterns of [emailaddress.go] (lines 28-29) *)

Module Pattern.

(** [[a-z0-9!#$%&'*+/=?^_`{|}~-]] *)
Definition atext : regex :=
  Cls [(97, 122); (48, 57); (33, 33); (35, 35); (36, 36); (37, 37); (38, 38);
       (39, 39); (42, 42); (43, 43); (47, 47); (61, 61); (63, 63); (94, 94);
       (95, 95); (96, 96); (123, 123); (124, 124); (125, 125); (126, 126);
       (45, 45)]%N.

(** [[\x01-\x08\x0b\x0c\x0e-\x1f\x21\x23-\x5b\x5d-\x7f]] *)
Definition qtext : regex :=
  Cls [(1, 8); (11, 11); (12, 12); (14, 31); (33, 33); (35, 91); (93, 127)]%N.

(** [[\x01-\x09\x0b\x0c\x0e-\x7f]] *)
Definition quoted_pair_char : regex :=
  Cls [(1, 9); (11, 11); (12, 12); (14, 127)]%N.

(** [[\x01-\x08\x0b\x0c\x0e-\x1f\x21-\x5a\x53-\x7f]] *)
Definition dtext : regex :=
  Cls [(1, 8); (11, 11); (12, 12); (14, 31); (33, 90); (83, 127)]%N.

Definition alnum : regex := Cls [(97, 122); (48, 57)]%N.          (* [a-z0-9] *)
Definition alnum_hyphen : regex := Cls [(97, 122); (48, 57); (45, 45)]%N. (* [a-z0-9-] *)
Definition digit : regex := Cls [(48, 57)]%N.                       (* [0-9] *)

Definition dot : regex := Lit 46.
Definition dquote : regex := Lit 34.
Definition backslash : regex := Lit 92.
Definition at_lit : regex := Lit 64.

(** [[a-z0-9!...-]+(?:\.[a-z0-9!...-]+)*|"(?:qtext|\\qp)*"] *)
Definition local_part : regex :=
  Alt (Cat (Plus atext) (Star (Cat dot (Plus atext))))
      (Cat dquote (Cat (Star (Alt qtext (Cat backslash quoted_pair_char))) dquote)).

(** [[a-z0-9](?:[a-z0-9-]*[a-z0-9])?] *)
Definition label : regex :=
  Cat alnum (Opt (Cat (Star alnum_hyphen) alnum)).

(** [2(5[0-5]|[0-4][0-9])|1[0-9][0-9]|[1-9]?[0-9]] *)
Definition octet : regex :=
  Alt (Cat (Lit 50) (Alt (Cat (Lit 53) (Cls [(48, 53)]%N))
                          (Cat (Cls [(48, 52)]%N) digit)))
      (Alt (Cat (Lit 49) (Cat digit digit))
           (Cat (Opt (Cls [(49, 57)]%N)) digit)).

(** [[a-z0-9-]*[a-z0-9]:(?:dtext|\\qp)+] *)
Definition general_literal : regex :=
  Cat (Star alnum_hyphen)
      (Cat alnum (Cat (Lit 58) (Plus (Alt dtext (Cat backslash quoted_pair_char))))).

(** [(?:label\.)+label|\[(?:octet\.){3}(?:octet|general)\]] *)
Definition domain : regex :=
  Alt (Cat (Plus (Cat label dot)) label)
      (Cat (Lit 91) (Cat (Rep3 (Cat octet dot))
                         (Cat (Alt octet general_literal) (Lit 93)))).

End Pattern.

(** [validEmailRegexp]: [^(?i)(?:local)@(?:domain)*$].  Note the [*]
    after the domain group. *)
Definition validEmailRegexp : regex :=
  Cat BeginText
      (Cat Pattern.local_part
           (Cat Pattern.at_lit (Cat (Star Pattern.domain) EndText))).

(** [findEmailRegexp]: [(?i)(?:local)@(?:domain)]. *)
Definition findEmailRegexp : regex :=
  Cat Pattern.local_part (Cat Pattern.at_lit Pattern.domain).

(** ** Results of Go functions: a value, an [error], or a run-time panic *)

Inductive outcome (A : Type) : Type :=
| Ok (a : A)
| Err (msg : gostring)
| Panic.
Arguments Ok {A} a.
Arguments Err {A} msg.
Arguments Panic {A}.

(** ** [EmailAddress] and its methods *)

Record EmailAddress : Type := mkEmailAddress {
  LocalPart : gostring;
  Domain : gostring
}.

(** [func (e EmailAddress) String() string]: [fmt.Sprintf("%s@%s", ...)]. *)
Definition EmailAddress_String (e : EmailAddress) : gostring :=
  LocalPart e ++ [at_sign] ++ Domain e.

(** [strings.LastIndexByte]: [for i := len(s) - 1; i >= 0; i--], with
    [last_index_from s c i] the loop entered at [i - 1]. *)
Fixpoint last_index_from (s : gostring) (c : rune) (i : nat) : Z :=
  match i with
  | O => (-1)%Z
  | S i' => if (nth i' s 0 =? c)%N then Z.of_nat i' else last_index_from s c i'
  end.

Definition LastIndexByte (s : gostring) (c : rune) : Z :=
  last_index_from s c (length s).

(** [func Parse(email string) ( *EmailAddress, error)]; slicing with a
    negative index panics. *)
Definition Parse (email : gostring) : outcome EmailAddress :=
  if negb (MatchString validEmailRegexp email) then
    Err (runes_of "format is incorrect for " ++ email)
  else
    let i := LastIndexByte email at_sign in
    if (i <? 0)%Z then Panic
    else Ok {| LocalPart := firstn (Z.to_nat i) email;
               Domain := skipn (Z.to_nat i + 1) email |}.

(** ** Network side: DNS lookups and the SMTP conversation *)

(** [net.MX]. *)
Record MX : Type := mkMX { Host : gostring; Pref : N }.

(** [net.IP]: the address bytes. *)
Definition IP : Type := list N.

(** Commands sent over an [smtp.Client]; [Dial] covers [smtp.Dial] (connect
    and read the server greeting), [Close] the deferred [client.Close]. *)
Inductive smtp_cmd : Type :=
| Dial (addr : gostring)
| Hello (localName : gostring)
| Mail (from : gostring)
| Rcpt (to : gostring)
| Reset
| Quit
| Close.

(** A small state monad over the log of SMTP commands issued so far. *)
Definition SMTP (A : Type) : Type := list smtp_cmd -> A * list smtp_cmd.

Definition ret {A} (a : A) : SMTP A := fun tr => (a, tr).
Definition bind {A B} (m : SMTP A) (f : A -> SMTP B) : SMTP B :=
  fun tr => let '(a, tr') := m tr in f a tr'.

Notation "x <- m ;; k" := (bind m (fun x => k))
  (at level 61, m at next level, right associativity).

Section Network.

(** The resolver, as Go's [(value, error)] pairs ([None] is a nil error). *)
Variable LookupMX : gostring -> list MX * option gostring.
Variable LookupIP : gostring -> list IP * option gostring.
(** [net.IP.String]. *)
Variable IP_String : IP -> gostring.
(** The SMTP server: the error (if any) answered to a command, given the
    commands already sent. *)
Variable smtp_answer : list smtp_cmd -> smtp_cmd -> option gostring.

Definition issue (c : smtp_cmd) : SMTP (option gostring) :=
  fun tr => (smtp_answer tr c, tr ++ [c]).

(** [func lookupHost(domain string) (string, error)]; indexing an empty
    slice panics. *)
Definition lookupHost (domain : gostring) : outcome gostring :=
  let '(mx, err) := LookupMX domain in
  match err with
  | None =>
      match mx with
      | m :: _ => Ok (Host m)
      | [] => Panic
      end
  | Some _ =>
      let '(ips, err') := LookupIP domain in
      match err' with
      | None =>
          match ips with
          | ip :: _ => Ok (IP_String ip)
          | [] => Panic
          end
      | Some _ =>
          Err (runes_of "failed finding MX and A records for domain " ++ domain)
      end
  end.

(** [func tryHost(host string, e EmailAddress) error]; [None] is a nil
    error.  The results of [Reset] and [Quit] are discarded and the
    deferred [Close] runs on every return after a successful dial. *)
Definition tryHost (host : gostring) (e : EmailAddress) : SMTP (option gostring) :=
  err <- issue (Dial (host ++ runes_of ":25")) ;;
  match err with
  | Some _ => ret err
  | None =>
      res <- (err <- issue (Hello (Domain e)) ;;
              match err with
              | Some _ => ret err
              | None =>
                  err <- issue (Mail (runes_of "hello@" ++ Domain e)) ;;
                  match err with
                  | Some _ => ret err
                  | None =>
                      err <- issue (Rcpt (EmailAddress_String e)) ;;
                      match err with
                      | Some _ => ret err
                      | None =>
                          _ <- issue Reset ;;
                          _ <- issue Quit ;;
                          ret None
                      end
                  end
              end) ;;
      _ <- issue Close ;;
      ret res
  end.

(** [func (e EmailAddress) ValidateHost() error]; [Ok tt] is a nil error. *)
Definition ValidateHost (e : EmailAddress) : SMTP (outcome unit) :=
  match lookupHost (Domain e) with
  | Ok host =>
      err <- tryHost host e ;;
      ret (match err with None => Ok tt | Some m => Err m end)
  | Err m => ret (Err m)
  | Panic => ret Panic
  end.

(** The loop of [Find] over the candidates, [emails] accumulated in order. *)
Fixpoint find_loop (validateHost : bool) (results : list gostring)
         (emails : list EmailAddress) : SMTP (outcome (list EmailAddress)) :=
  match results with
  | [] => ret (Ok emails)
  | r :: results' =>
      match Parse r with
      | Panic => ret Panic
      | Err _ => find_loop validateHost results' emails
      | Ok e =>
          if validateHost then
            v <- ValidateHost e ;;
            match v with
            | Ok _ => find_loop validateHost results' (emails ++ [e])
            | Err _ => find_loop validateHost results' emails
            | Panic => ret Panic
            end
          else find_loop validateHost results' (emails ++ [e])
      end
  end.

(** [func Find(haystack []byte, validateHost bool) (emails []*EmailAddress)]. *)
Definition Find (haystack : gostring) (validateHost : bool)
  : SMTP (outcome (list EmailAddress)) :=
  find_loop validateHost (FindAll findEmailRegexp haystack) [].

(** The candidates that pass [ValidateHost], checked one after the other
    in order (the filter [Find] applies when [validateHost] is set). *)
Fixpoint keep_valid (cands : list EmailAddress) : SMTP (list EmailAddress) :=
  match cands with
  | [] => ret []
  | e :: cs =>
      v <- ValidateHost e ;;
      l <- keep_valid cs ;;
      ret (match v with Ok _ => e :: l | _ => l end)
  end.

End Network.

(** The addresses [Parse] yields for a list of candidates, in order. *)
Definition parsed (results : list gostring) : list EmailAddress :=
  flat_map (fun r => match Parse r with Ok e => [e] | _ => [] end) results.

(** ** Tests of the repository, evaluated on the model *)

Example parse_valid_1 :
  Parse (runes_of "email@domain.com")
  = Ok (mkEmailAddress (runes_of "email") (runes_of "domain.com")).
Proof. vm_compute. reflexivity. Qed.

Example parse_tests_ok :
  map (fun s => match Parse (runes_of s) with Ok _ => true | _ => false end)
    ["firstname+last.name@domain.com"; "email@123.123.123.123";
     "email@[123.123.123.123]"; "FirstNameLastName@doMain.com"; "plainaddress";
     "#@%^%#$@#$@#.com"; "@domain.com"; "Joe Smith <email@domain.com>";
     "email@domain@domain.com"; ".email@domain.com"; "email.@domain.com";
     "email..email@domain.com"; "email@domain.com (Joe Smith)"; "email@domain";
     "email@-domain.com"; "email@domain..com"; "email@"]%string
  = [true; true; true; true; false; false; false; false; false; false;
     false; false; false; false; false; false; true].
Proof. vm_compute. reflexivity. Qed.

Example parse_valid_3 :
  Parse ([34%N] ++ runes_of "email" ++ [34%N] ++ runes_of "@domain.com")
  = Ok (mkEmailAddress ([34%N] ++ runes_of "email" ++ [34%N]) (runes_of "domain.com")).
Proof. vm_compute. reflexivity. Qed.

Example findall_4 :
  FindAll findEmailRegexp
    (runes_of "Send me an email at this@domain.com or info@domain.com or not.")
  = [runes_of "this@domain.com"; runes_of "info@domain.com"].
Proof. vm_compute. reflexivity. Qed.


(** * Reference semantics of the regex syntax

    [lang len0 r p s]: in a text of length [len0], [r] matches [p] when
    [s] follows it.  A star iteration consumes input (as RE2 skips empty
    iterations), which does not change the language. *)
Inductive lang (len0 : nat) : regex -> gostring -> gostring -> Prop :=
| lang_eps s : lang len0 Eps [] s
| lang_cls rs c s : fold_class rs c = true -> lang len0 (Cls rs) [c] s
| lang_cat r1 r2 p1 p2 s :
    lang len0 r1 p1 (p2 ++ s) -> lang len0 r2 p2 s ->
    lang len0 (Cat r1 r2) (p1 ++ p2) s
| lang_alt_l r1 r2 p s : lang len0 r1 p s -> lang len0 (Alt r1 r2) p s
| lang_alt_r r1 r2 p s : lang len0 r2 p s -> lang len0 (Alt r1 r2) p s
| lang_star_intro r p s : lang_star len0 r p s -> lang len0 (Star r) p s
| lang_begin s : length s = len0 -> lang len0 BeginText [] s
| lang_end : lang len0 EndText [] []
with lang_star (len0 : nat) : regex -> gostring -> gostring -> Prop :=
| star_nil r s : lang_star len0 r [] s
| star_cons r p1 p2 s :
    p1 <> [] -> lang len0 r p1 (p2 ++ s) -> lang_star len0 r p2 s ->
    lang_star len0 r (p1 ++ p2) s.

Scheme lang_mut := Induction for lang Sort Prop
  with lang_star_mut := Induction for lang_star Sort Prop.

(** Regexes without [^] and [$]: their matches do not depend on where in
    the text they are. *)
Fixpoint anchor_free (r : regex) : bool :=
  match r with
  | Eps | Cls _ => true
  | Cat r1 r2 | Alt r1 r2 => anchor_free r1 && anchor_free r2
  | Star r1 => anchor_free r1
  | BeginText | EndText => false
  end.

(** Every class of [r] is made of ASCII ranges. *)
Fixpoint classes_ascii (r : regex) : bool :=
  match r with
  | Cls rs => forallb (fun '(_, hi) => (hi <=? 127)%N) rs
  | Cat r1 r2 | Alt r1 r2 => classes_ascii r1 && classes_ascii r2
  | Star r1 => classes_ascii r1
  | Eps | BeginText | EndText => true
  end.

(** The code points a folded ASCII class can accept: ASCII, U+017F and
    U+212A. *)
Definition ascii_or_fold (c : rune) : Prop :=
  (c <= 127)%N \/ c = 383%N \/ c = 8490%N.

(** [l1] is [l2] with some elements left out, in the same order. *)
Inductive subseq {A : Type} : list A -> list A -> Prop :=
| subseq_nil : subseq [] []
| subseq_keep x l1 l2 : subseq l1 l2 -> subseq (x :: l1) (x :: l2)
| subseq_drop x l1 l2 : subseq l1 l2 -> subseq l1 (x :: l2).

(** A text cut into a gap, then (match, gap) pairs. *)
Definition weave (g0 : gostring) (pieces : list (gostring * gostring)) : gostring :=
  g0 ++ concat (map (fun mg => fst mg ++ snd mg) pieces).

(** * Properties of the matcher *)

Section MatcherFacts.

(** A successful match hands a suffix of the text to its continuation. *)
Lemma mtch_suffix (len0 : nat) (r : regex) :
  forall s k x, mtch len0 r s k = Some x ->
  exists p s', s = p ++ s' /\ k s' = Some x.
Proof.
  induction r as [| rs | r1 IH1 r2 IH2 | r1 IH1 r2 IH2 | r1 IH1 | |];
    intros s k x H; cbn [mtch] in H.
  - exists [], s; auto.
  - destruct s as [| c s']; [discriminate |].
    destruct (fold_class rs c); [| discriminate].
    exists [c], s'; auto.
  - destruct (IH1 _ _ _ H) as (p1 & s1 & -> & H1).
    destruct (IH2 _ _ _ H1) as (p2 & s2 & -> & H2).
    exists (p1 ++ p2), s2; split; [rewrite app_assoc |]; auto.
  - destruct (mtch len0 r1 s k) eqn:E.
    + injection H as <-. exact (IH1 _ _ _ E).
    + exact (IH2 _ _ _ H).
  - revert H. generalize (S (length s)) as n. intros n. revert s.
    induction n as [| n IHn]; intros s H; simpl in H.
    + exists [], s; auto.
    + destruct (mtch len0 r1 s _) eqn:E.
      * injection H as <-.
        destruct (IH1 _ _ _ E) as (p1 & s1 & -> & H1).
        destruct (_ <? _); [| discriminate].
        destruct (IHn _ H1) as (p2 & s2 & -> & H2).
        exists (p1 ++ p2), s2; split; [rewrite app_assoc |]; auto.
      * exists [], s; auto.
  - destruct (length s =? len0); [exists [], s; auto | discriminate].
  - destruct s; [exists [], []; auto | discriminate].
Qed.

(** The literal [@] accepts exactly the character [@]. *)
Lemma fold_class_at (c : rune) :
  fold_class [(64, 64)%N] c = true -> c = at_sign.
Proof.
  unfold fold_class, fold_orbit, in_ranges, at_sign. simpl.
  rewrite orb_false_r.
  destruct ((64 <=? c) && (c <=? 64))%N eqn:E0.
  - intros _. apply andb_true_iff in E0 as [E1 E2].
    apply N.leb_le in E1, E2. lia.
  - simpl. intros H.
    destruct ((65 <=? c) && (c <=? 90))%N eqn:E1.
    + apply andb_true_iff in E1 as [E1 E2]; apply N.leb_le in E1, E2.
      simpl in H. apply orb_true_iff in H as [H | H].
      * rewrite orb_false_r in H. apply andb_true_iff in H as [H1 H2].
        apply N.leb_le in H1, H2. lia.
      * destruct (c =? 75)%N; [| destruct (c =? 83)%N]; simpl in H;
          try discriminate; rewrite orb_false_r in H;
          apply andb_true_iff in H as [H1 H2]; apply N.leb_le in H1, H2; lia.
    + destruct ((97 <=? c) && (c <=? 122))%N eqn:E2.
      * apply andb_true_iff in E2 as [E2 E3]; apply N.leb_le in E2, E3.
        simpl in H. apply orb_true_iff in H as [H | H].
        -- rewrite orb_false_r in H. apply andb_true_iff in H as [H1 H2].
           apply N.leb_le in H1, H2. lia.
        -- destruct (c =? 107)%N; [| destruct (c =? 115)%N]; simpl in H;
             try discriminate; rewrite orb_false_r in H;
             apply andb_true_iff in H as [H1 H2]; apply N.leb_le in H1, H2; lia.
      * destruct (c =? 8490)%N; [| destruct (c =? 383)%N]; simpl in H;
          discriminate.
Qed.

Lemma firstn_consumed (p s' : gostring) :
  firstn (length (p ++ s') - length s') (p ++ s') = p.
Proof.
  rewrite length_app, Nat.add_sub, firstn_app, Nat.sub_diag, firstn_O,
    app_nil_r, firstn_all. reflexivity.
Qed.

Lemma search_from_eq (len0 : nat) (r : regex) (s : gostring) :
  search_from len0 r s =
  match mtch len0 r s (fun rest => Some rest) with
  | Some rest => Some ([], firstn (length s - length rest) s, rest)
  | None =>
      match s with
      | [] => None
      | c :: s' =>
          match search_from len0 r s' with
          | Some (p, m, rest) => Some (c :: p, m, rest)
          | None => None
          end
      end
  end.
Proof. destruct s; reflexivity. Qed.

Lemma mtch_first_split (len0 : nat) (r : regex) (t rest : gostring) :
  mtch len0 r t (fun rest => Some rest) = Some rest ->
  t = [] ++ firstn (length t - length rest) t ++ rest /\
  mtch len0 r (firstn (length t - length rest) t ++ rest) (fun t => Some t)
  = Some rest.
Proof.
  intros E. destruct (mtch_suffix _ _ _ _ _ E) as (p & s' & -> & Hk).
  injection Hk as ->. rewrite firstn_consumed. auto.
Qed.

(** [search_from] splits the text into skipped prefix, match and rest. *)
Lemma search_from_split (len0 : nat) (r : regex) :
  forall s pre m rest, search_from len0 r s = Some (pre, m, rest) ->
  s = pre ++ m ++ rest /\ mtch len0 r (m ++ rest) (fun t => Some t) = Some rest.
Proof.
  induction s as [| c s IH]; intros pre m rest H; rewrite search_from_eq in H;
    (destruct (mtch len0 r _ _) eqn:E;
     [ injection H as <- <- <-; exact (mtch_first_split _ _ _ _ E) | ]).
  - discriminate.
  - destruct (search_from len0 r s) as [[[p m'] rest'] |] eqn:E2;
        [| discriminate].
      injection H as <- <- <-.
      destruct (IH _ _ _ eq_refl) as [-> Hm]. auto.
Qed.

End MatcherFacts.

(** * Properties of [validEmailRegexp], [LastIndexByte] and [Parse] *)

Section ParseFacts.

(** Anything matched by [local@...] contains the character [@]. *)
Lemma mtch_at_in (len0 : nat) (r1 : regex) (t : gostring) k x :
  mtch len0 r1 t (fun t' => mtch len0 Pattern.at_lit t' k) = Some x ->
  In at_sign t.
Proof.
  intros H.
  destruct (mtch_suffix _ _ _ _ _ H) as (p & s' & -> & Hk).
  cbn [mtch Pattern.at_lit Lit] in Hk.
  destruct s' as [| c s'']; [discriminate |].
  destruct (fold_class _ c) eqn:Ec; [| discriminate].
  apply fold_class_at in Ec as ->.
  apply in_or_app. right. left. reflexivity.
Qed.

Lemma MatchString_split (r : regex) (s : gostring) :
  MatchString r s = true ->
  exists pre m rest, s = pre ++ m ++ rest /\
    mtch (length s) r (m ++ rest) (fun t => Some t) = Some rest.
Proof.
  unfold MatchString.
  destruct (search_from (length s) r s) as [[[pre m] rest] |] eqn:E;
    [| discriminate].
  intros _. destruct (search_from_split _ _ _ _ _ _ E) as [Hs Hm].
  exists pre, m, rest. auto.
Qed.

Lemma valid_match_has_at (s : gostring) :
  MatchString validEmailRegexp s = true -> In at_sign s.
Proof.
  intros H. destruct (MatchString_split _ _ H) as (pre & m & rest & Hs & Hm).
  unfold validEmailRegexp in Hm. cbn [mtch] in Hm.
  destruct (length (m ++ rest) =? length s); [| discriminate].
  apply mtch_at_in in Hm. rewrite Hs. apply in_or_app. right. exact Hm.
Qed.

Lemma last_index_from_spec (s : gostring) (c : rune) (n : nat) :
  (last_index_from s c n = (-1)%Z /\ forall j, j < n -> nth j s 0%N <> c)
  \/ (exists i, last_index_from s c n = Z.of_nat i /\ i < n /\ nth i s 0%N = c
        /\ forall j, i < j < n -> nth j s 0%N <> c).
Proof.
  induction n as [| n IH]; simpl.
  - left. split; [reflexivity | intros j Hj; lia].
  - destruct (nth n s 0 =? c)%N eqn:E.
    + apply N.eqb_eq in E. right. exists n.
      split; [reflexivity | split; [lia | split; [exact E | intros j Hj; lia]]].
    + apply N.eqb_neq in E. destruct IH as [[H1 H2] | (i & H1 & H2 & H3 & H4)].
      * left. split; auto. intros j Hj.
        destruct (Nat.eq_dec j n) as [-> | Hne]; auto. apply H2. lia.
      * right. exists i. split; [exact H1 | split; [lia | split; [exact H3 |]]].
        intros j Hj.
        destruct (Nat.eq_dec j n) as [-> | Hne]; auto. apply H4. lia.
Qed.

(** With an [@] in the string, [LastIndexByte] finds the last one. *)
Lemma LastIndexByte_last (s : gostring) (c : rune) :
  In c s ->
  exists i, LastIndexByte s c = Z.of_nat i /\ i < length s /\ nth i s 0%N = c
    /\ forall j, i < j < length s -> nth j s 0%N <> c.
Proof.
  intros Hin. unfold LastIndexByte.
  destruct (last_index_from_spec s c (length s)) as [[_ H] | H]; auto.
  destruct (In_nth _ _ 0%N Hin) as (j & Hj & Hnth). exfalso. exact (H j Hj Hnth).
Qed.

Lemma skipn_nth_cons (s : gostring) (i : nat) :
  i < length s -> skipn i s = nth i s 0%N :: skipn (S i) s.
Proof.
  revert i. induction s as [| a s IH]; intros i Hi; simpl in Hi; [lia |].
  destruct i as [| i]; [reflexivity |]. simpl. apply IH. lia.
Qed.

(** [Parse] on a string accepted by [validEmailRegexp]: the split at the
    last [@]. *)
Lemma Parse_matched (s : gostring) :
  MatchString validEmailRegexp s = true ->
  exists i, i < length s /\ nth i s 0%N = at_sign
    /\ (forall j, i < j < length s -> nth j s 0%N <> at_sign)
    /\ Parse s = Ok {| LocalPart := firstn i s; Domain := skipn (S i) s |}.
Proof.
  intros Hm.
  destruct (LastIndexByte_last s at_sign (valid_match_has_at s Hm))
    as (i & Hi & Hlt & Hat & Hlast).
  exists i. repeat split; auto.
  unfold Parse. rewrite Hm, Hi. simpl negb. cbv iota.
  destruct (Z.ltb_spec (Z.of_nat i) 0) as [Hneg | _]; [lia |].
  rewrite Nat2Z.id, Nat.add_1_r. reflexivity.
Qed.

(** The two parts of a split at [i] glue back with [@]. *)
Lemma split_at_glue (s : gostring) (i : nat) :
  i < length s -> nth i s 0%N = at_sign ->
  firstn i s ++ [at_sign] ++ skipn (S i) s = s.
Proof.
  intros Hlt Hat. rewrite <- Hat. simpl.
  rewrite <- skipn_nth_cons by exact Hlt. apply firstn_skipn.
Qed.

Lemma no_at_after (s : gostring) (i : nat) :
  (forall j, i < j < length s -> nth j s 0%N <> at_sign) ->
  ~ In at_sign (skipn (S i) s).
Proof.
  intros Hlast Hin.
  destruct (In_nth _ _ 0%N Hin) as (j & Hj & Hnth).
  rewrite nth_skipn in Hnth. rewrite length_skipn in Hj.
  apply (Hlast (S i + j)); [lia | exact Hnth].
Qed.

End ParseFacts.

(** * Properties of [FindAll], [lookupHost] and [Find] *)

Section FindFacts.

Variable LookupMX : gostring -> list MX * option gostring.
Variable LookupIP : gostring -> list IP * option gostring.
Variable IP_String : IP -> gostring.
Variable smtp_answer : list smtp_cmd -> smtp_cmd -> option gostring.

Lemma all_matches_infix (len0 : nat) (r : regex) :
  forall fuel b s m, In m (all_matches len0 r fuel b s) ->
  exists p q, s = p ++ m ++ q.
Proof.
  induction fuel as [| fuel IH]; intros b s m Hin; simpl in Hin; [contradiction |].
  destruct (search_from len0 r s) as [[[pre m'] rest] |] eqn:E; [| contradiction].
  destruct (search_from_split _ _ _ _ _ _ E) as [Hs _].
  assert (Hrest : forall x, In x (all_matches len0 r fuel true rest) ->
                  exists p q, s = p ++ x ++ q).
  { intros x Hx. destruct (IH _ _ _ Hx) as (p & q & ->).
    exists (pre ++ m' ++ p), q. rewrite Hs. rewrite !app_assoc. reflexivity. }
  destruct pre as [| c pre]; [destruct m' as [| c' m'] |].
  - simpl in Hs. subst rest.
    assert (Hacc : In m (if b then [] else [[]]) -> m = []).
    { destruct b; simpl; [contradiction | intros [<- | []]; reflexivity]. }
    destruct s as [| c s].
    + apply Hacc in Hin. subst m. exists [], []. reflexivity.
    + apply in_app_or in Hin as [Hin | Hin].
      * apply Hacc in Hin. subst m. exists [], (c :: s). reflexivity.
      * destruct (IH _ _ _ Hin) as (p & q & ->). exists (c :: p), q. reflexivity.
  - destruct Hin as [<- | Hin]; [exists [], rest; exact Hs | exact (Hrest _ Hin)].
  - destruct Hin as [<- | Hin];
      [exists (c :: pre), rest; exact Hs | exact (Hrest _ Hin)].
Qed.

Lemma FindAll_infix (r : regex) (b m : gostring) :
  In m (FindAll r b) -> exists p q, b = p ++ m ++ q.
Proof. apply all_matches_infix. Qed.

(** What [Parse] returns renders back to its input, which it matched. *)
Lemma Parse_Ok_inv (r : gostring) (e : EmailAddress) :
  Parse r = Ok e ->
  EmailAddress_String e = r /\ MatchString validEmailRegexp r = true.
Proof.
  intros H.
  destruct (MatchString validEmailRegexp r) eqn:Hm.
  - destruct (Parse_matched r Hm) as (i & Hlt & Hat & _ & Hp).
    rewrite Hp in H. injection H as <-. split; [| reflexivity].
    apply split_at_glue; assumption.
  - unfold Parse in H. rewrite Hm in H. discriminate.
Qed.

(** [Parse] never panics: it returns an address or an error. *)
Lemma Parse_total (s : gostring) :
  (exists e, Parse s = Ok e) \/ Parse s = Err (runes_of "format is incorrect for " ++ s).
Proof.
  destruct (MatchString validEmailRegexp s) eqn:Hm.
  - left. destruct (Parse_matched s Hm) as (i & _ & _ & _ & Hp). eauto.
  - right. unfold Parse. rewrite Hm. reflexivity.
Qed.

Lemma find_loop_sound (P : EmailAddress -> Prop) (v : bool) :
  forall results emails tr l tr',
  (forall r e, In r results -> Parse r = Ok e -> P e) ->
  (forall e, In e emails -> P e) ->
  find_loop LookupMX LookupIP IP_String smtp_answer v results emails tr
  = (Ok l, tr') ->
  forall e, In e l -> P e.
Proof.
  induction results as [| r results IH]; intros emails tr l tr' Hres Hem H;
    cbn [find_loop] in H; unfold ret in H.
  - injection H as <- _. exact Hem.
  - assert (Hres' : forall r' e, In r' results -> Parse r' = Ok e -> P e)
      by (intros r' e Hin; apply Hres; right; exact Hin).
    destruct (Parse r) as [e0 | msg |] eqn:Hp; [| exact (IH _ _ _ _ Hres' Hem H)
                                                | discriminate].
    assert (Hem' : forall e, In e (emails ++ [e0]) -> P e).
    { intros e Hin. apply in_app_or in Hin as [Hin | [<- | []]];
        [exact (Hem _ Hin) | exact (Hres r e0 (or_introl eq_refl) Hp)]. }
    destruct v.
    + unfold bind in H.
      destruct (ValidateHost _ _ _ _ e0 tr) as [[u | m |] tr1].
      * exact (IH _ _ _ _ Hres' Hem' H).
      * exact (IH _ _ _ _ Hres' Hem H).
      * discriminate.
    + exact (IH _ _ _ _ Hres' Hem' H).
Qed.

(** Under a resolver whose successful lookups are non-empty, [lookupHost]
    does not panic. *)
Lemma lookupHost_total (d : gostring) :
  (snd (LookupMX d) = None -> fst (LookupMX d) <> []) ->
  (snd (LookupIP d) = None -> fst (LookupIP d) <> []) ->
  lookupHost LookupMX LookupIP IP_String d <> Panic.
Proof.
  intros Hmx Hip. unfold lookupHost.
  destruct (LookupMX d) as [mx [err |]]; simpl in Hmx.
  - destruct (LookupIP d) as [ips [err' |]]; simpl in Hip; [discriminate |].
    destruct ips; [exfalso; exact (Hip eq_refl eq_refl) | discriminate].
  - destruct mx; [exfalso; exact (Hmx eq_refl eq_refl) | discriminate].
Qed.

Lemma find_loop_spec (v : bool)
  (Hmx : forall d, snd (LookupMX d) = None -> fst (LookupMX d) <> [])
  (Hip : forall d, snd (LookupIP d) = None -> fst (LookupIP d) <> []) :
  forall results emails tr,
  find_loop LookupMX LookupIP IP_String smtp_answer v results emails tr
  = if v then
      let '(l, tr') := keep_valid LookupMX LookupIP IP_String smtp_answer
                         (parsed results) tr in
      (Ok (emails ++ l), tr')
    else (Ok (emails ++ parsed results), tr).
Proof.
  induction results as [| r results IH]; intros emails tr;
    cbn [find_loop parsed flat_map].
  - destruct v; simpl; rewrite app_nil_r; reflexivity.
  - destruct (Parse_total r) as [[e He] | He]; rewrite He.
    + destruct v.
      * cbn [app keep_valid]. unfold bind, ret.
        assert (Hv : fst (ValidateHost LookupMX LookupIP IP_String smtp_answer e tr)
                     <> Panic).
        { unfold ValidateHost.
          pose proof (lookupHost_total (Domain e) (Hmx _) (Hip _)) as Hl.
          destruct (lookupHost _ _ _ _) as [host | m |];
            [| discriminate | contradiction].
          unfold bind, ret. destruct (tryHost _ _ _ _); simpl.
          destruct o; discriminate. }
        destruct (ValidateHost _ _ _ _ e tr) as [[u | m |] tr1]; simpl in Hv;
          [| | contradiction]; rewrite IH;
          destruct (keep_valid _ _ _ _ _ tr1) as [l tr2];
          [rewrite <- app_assoc | ]; reflexivity.
      * rewrite IH. simpl. rewrite <- app_assoc. reflexivity.
    + rewrite IH. simpl. reflexivity.
Qed.

End FindFacts.

(** * The claims *)

(** C1 (render with an empty part): [String] is [fmt.Sprintf("%s@%s",
    ...)] with no emptiness check, so an address with an empty domain
    renders as ["foo@"] and one with an empty local part as ["@bar.com"],
    where the repository's test [TestEmailAddress_String] expects [""]. *)
Theorem String_empty_part_not_empty :
  EmailAddress_String (mkEmailAddress (runes_of "foo") []) = runes_of "foo@"
  /\ EmailAddress_String (mkEmailAddress [] (runes_of "bar.com"))
     = runes_of "@bar.com"
  /\ EmailAddress_String (mkEmailAddress [] []) = runes_of "@".
Proof. repeat split; reflexivity. Qed.

(** C2 (round trip): every string accepted by [validEmailRegexp] parses,
    and rendering the address gives the string back; the domain holds no
    [@], so any earlier [@] stays in the local part.  (The non-emptiness
    of the two parts that the claim assumes is not needed.) *)
Theorem Parse_String_roundtrip (s : gostring) :
  MatchString validEmailRegexp s = true ->
  exists e, Parse s = Ok e /\ EmailAddress_String e = s
    /\ ~ In at_sign (Domain e).
Proof.
  intros Hm.
  destruct (Parse_matched s Hm) as (i & Hlt & Hat & Hlast & Hp).
  eexists. split; [exact Hp |]. split.
  - apply split_at_glue; assumption.
  - apply no_at_after. exact Hlast.
Qed.

Lemma Parse_String_roundtrip_witness :
  MatchString validEmailRegexp
    ([34%N] ++ runes_of "a@b" ++ [34%N] ++ runes_of "@domain.com") = true
  /\ exists e, Parse ([34%N] ++ runes_of "a@b" ++ [34%N] ++ runes_of "@domain.com")
               = Ok e
     /\ EmailAddress_String e
        = [34%N] ++ runes_of "a@b" ++ [34%N] ++ runes_of "@domain.com"
     /\ ~ In at_sign (Domain e).
Proof.
  split; [vm_compute; reflexivity |].
  apply Parse_String_roundtrip. vm_compute. reflexivity.
Defined.

(** C3 (errors of [Parse]): [Parse s] fails, with the error
    ["format is incorrect for " ++ s], exactly when [validEmailRegexp]
    does not match [s]; when it matches, [Parse s] returns an address. *)
Theorem Parse_error_iff_no_match (s : gostring) :
  (MatchString validEmailRegexp s = false <->
   Parse s = Err (runes_of "format is incorrect for " ++ s))
  /\ (MatchString validEmailRegexp s = false <-> exists msg, Parse s = Err msg)
  /\ (MatchString validEmailRegexp s = true <-> exists e, Parse s = Ok e).
Proof.
  assert (Hf : MatchString validEmailRegexp s = false ->
               Parse s = Err (runes_of "format is incorrect for " ++ s))
    by (intros Hm; unfold Parse; rewrite Hm; reflexivity).
  assert (Ht : MatchString validEmailRegexp s = true -> exists e, Parse s = Ok e)
    by (intros Hm; destruct (Parse_matched s Hm) as (i & _ & _ & _ & Hp); eauto).
  destruct (MatchString validEmailRegexp s) eqn:Hm.
  - destruct (Ht eq_refl) as [e He]. rewrite He.
    split; [| split]; split; intros H; try discriminate; eauto.
    destruct H as [msg H]; discriminate.
  - rewrite (Hf eq_refl).
    split; [| split]; split; intros H; eauto; try discriminate.
    destruct H as [e H]; discriminate.
Qed.

(** C4 (split at the last [@], no normalisation): for a string accepted
    by [validEmailRegexp], [Parse] returns the exact prefix before the
    last [@] as local part and the exact suffix after it as domain. *)
Theorem Parse_splits_at_last_at (s : gostring) :
  MatchString validEmailRegexp s = true ->
  exists i, i < length s /\ nth i s 0%N = at_sign
    /\ (forall j, i < j < length s -> nth j s 0%N <> at_sign)
    /\ Parse s = Ok {| LocalPart := firstn i s; Domain := skipn (S i) s |}.
Proof. intros Hm. exact (Parse_matched s Hm). Qed.

Lemma Parse_splits_at_last_at_witness :
  MatchString validEmailRegexp (runes_of "Email@Domain.COM") = true
  /\ exists i, i < length (runes_of "Email@Domain.COM")
    /\ nth i (runes_of "Email@Domain.COM") 0%N = at_sign
    /\ (forall j, i < j < length (runes_of "Email@Domain.COM") ->
          nth j (runes_of "Email@Domain.COM") 0%N <> at_sign)
    /\ Parse (runes_of "Email@Domain.COM")
       = Ok {| LocalPart := firstn i (runes_of "Email@Domain.COM");
               Domain := skipn (S i) (runes_of "Email@Domain.COM") |}.
Proof.
  split; [vm_compute; reflexivity |].
  apply Parse_splits_at_last_at. vm_compute. reflexivity.
Defined.

(** C5 (non-empty domain): the domain group of [validEmailRegexp] is
    followed by [*], so ["email@"] is accepted and [Parse] returns an
    empty domain; [findEmailRegexp], without the [*], rejects it. *)
Theorem Parse_accepts_empty_domain :
  MatchString validEmailRegexp (runes_of "email@") = true
  /\ Parse (runes_of "email@") = Ok (mkEmailAddress (runes_of "email") [])
  /\ MatchString findEmailRegexp (runes_of "email@") = false.
Proof. vm_compute. repeat split. Qed.

(** C6 (no false positives in [Find]): every address [Find] returns, with
    or without host validation, renders to a substring of the input that
    [validEmailRegexp] accepts. *)
Theorem Find_no_false_positive
  (LookupMX : gostring -> list MX * option gostring)
  (LookupIP : gostring -> list IP * option gostring)
  (IP_String : IP -> gostring)
  (smtp_answer : list smtp_cmd -> smtp_cmd -> option gostring)
  (h : gostring) (v : bool) (tr : list smtp_cmd)
  (l : list EmailAddress) (tr' : list smtp_cmd) :
  Find LookupMX LookupIP IP_String smtp_answer h v tr = (Ok l, tr') ->
  forall e, In e l ->
    MatchString validEmailRegexp (EmailAddress_String e) = true
    /\ exists p q, h = p ++ EmailAddress_String e ++ q.
Proof.
  intros H. unfold Find in H. revert H. apply find_loop_sound.
  - intros r e Hin Hp. destruct (Parse_Ok_inv r e Hp) as [Hr Hm].
    rewrite Hr. split; [exact Hm |]. exact (FindAll_infix _ _ _ Hin).
  - intros e [].
Qed.

(** A resolver and an SMTP server that accept everything. *)
Definition demo_LookupMX (d : gostring) : list MX * option gostring :=
  ([mkMX (runes_of "mx.") 10], None).
Definition demo_LookupIP (d : gostring) : list IP * option gostring :=
  ([[127; 0; 0; 1]%N], None).
Definition demo_IP_String (ip : IP) : gostring := runes_of "127.0.0.1".
Definition demo_smtp_answer (tr : list smtp_cmd) (c : smtp_cmd) : option gostring :=
  None.

Definition demo_text : gostring :=
  runes_of "Send me an email at this@domain.com or info@domain.com or not.".

Lemma Find_no_false_positive_witness :
  Find demo_LookupMX demo_LookupIP demo_IP_String demo_smtp_answer demo_text true []
  = (Ok [mkEmailAddress (runes_of "this") (runes_of "domain.com");
         mkEmailAddress (runes_of "info") (runes_of "domain.com")],
     [Dial (runes_of "mx.:25"); Hello (runes_of "domain.com");
      Mail (runes_of "hello@domain.com"); Rcpt (runes_of "this@domain.com");
      Reset; Quit; Close;
      Dial (runes_of "mx.:25"); Hello (runes_of "domain.com");
      Mail (runes_of "hello@domain.com"); Rcpt (runes_of "info@domain.com");
      Reset; Quit; Close])
  /\ forall e, In e [mkEmailAddress (runes_of "this") (runes_of "domain.com");
                     mkEmailAddress (runes_of "info") (runes_of "domain.com")] ->
     MatchString validEmailRegexp (EmailAddress_String e) = true
     /\ exists p q, demo_text = p ++ EmailAddress_String e ++ q.
Proof.
  split; [vm_compute; reflexivity |].
  apply (Find_no_false_positive demo_LookupMX demo_LookupIP demo_IP_String
           demo_smtp_answer demo_text true [] _
           [Dial (runes_of "mx.:25"); Hello (runes_of "domain.com");
            Mail (runes_of "hello@domain.com"); Rcpt (runes_of "this@domain.com");
            Reset; Quit; Close;
            Dial (runes_of "mx.:25"); Hello (runes_of "domain.com");
            Mail (runes_of "hello@domain.com"); Rcpt (runes_of "info@domain.com");
            Reset; Quit; Close]).
  vm_compute. reflexivity.
Defined.

(** C7 (what [Find] returns): with a resolver whose error-free lookups
    return at least one record (as Go's resolver does), [Find] never
    panics and returns the matches of [findEmailRegexp] ([FindAll], in
    order, with duplicates) that [Parse] accepts, further filtered in
    order by [ValidateHost] when [validateHost] is set; rejected
    candidates are dropped, and no match gives the empty list. *)
Theorem Find_filters_matches
  (LookupMX : gostring -> list MX * option gostring)
  (LookupIP : gostring -> list IP * option gostring)
  (IP_String : IP -> gostring)
  (smtp_answer : list smtp_cmd -> smtp_cmd -> option gostring)
  (Hmx : forall d, snd (LookupMX d) = None -> fst (LookupMX d) <> [])
  (Hip : forall d, snd (LookupIP d) = None -> fst (LookupIP d) <> [])
  (h : gostring) (v : bool) (tr : list smtp_cmd) :
  Find LookupMX LookupIP IP_String smtp_answer h v tr
  = (if v then
       let '(l, tr') := keep_valid LookupMX LookupIP IP_String smtp_answer
                          (parsed (FindAll findEmailRegexp h)) tr in
       (Ok l, tr')
     else (Ok (parsed (FindAll findEmailRegexp h)), tr))
  /\ (FindAll findEmailRegexp h = [] ->
      Find LookupMX LookupIP IP_String smtp_answer h v tr = (Ok [], tr)).
Proof.
  unfold Find. split.
  - rewrite (find_loop_spec _ _ _ _ v Hmx Hip). reflexivity.
  - intros H0. rewrite H0. destruct v; reflexivity.
Qed.

Lemma Find_filters_matches_witness :
  (forall d, snd (demo_LookupMX d) = None -> fst (demo_LookupMX d) <> [])
  /\ (forall d, snd (demo_LookupIP d) = None -> fst (demo_LookupIP d) <> [])
  /\ Find demo_LookupMX demo_LookupIP demo_IP_String demo_smtp_answer demo_text false []
     = (Ok (parsed (FindAll findEmailRegexp demo_text)), []).
Proof.
  assert (H1 : forall d, snd (demo_LookupMX d) = None -> fst (demo_LookupMX d) <> [])
    by (intros d _; discriminate).
  assert (H2 : forall d, snd (demo_LookupIP d) = None -> fst (demo_LookupIP d) <> [])
    by (intros d _; discriminate).
  split; [exact H1 | split; [exact H2 |]].
  exact (proj1 (Find_filters_matches demo_LookupMX demo_LookupIP demo_IP_String
                  demo_smtp_answer H1 H2 demo_text false [])).
Defined.

(** C8 (host resolution): the first MX host when the MX lookup succeeds
    with records; else the first IP address when the IP lookup succeeds
    with records; else an error naming the domain. *)
Theorem lookupHost_resolution
  (LookupMX : gostring -> list MX * option gostring)
  (LookupIP : gostring -> list IP * option gostring)
  (IP_String : IP -> gostring) (d : gostring) :
  (forall m ms, LookupMX d = (m :: ms, None) ->
     lookupHost LookupMX LookupIP IP_String d = Ok (Host m))
  /\ (forall mx err ip ips, LookupMX d = (mx, Some err) ->
        LookupIP d = (ip :: ips, None) ->
        lookupHost LookupMX LookupIP IP_String d = Ok (IP_String ip))
  /\ (forall mx err ips err', LookupMX d = (mx, Some err) ->
        LookupIP d = (ips, Some err') ->
        lookupHost LookupMX LookupIP IP_String d
        = Err (runes_of "failed finding MX and A records for domain " ++ d)).
Proof.
  unfold lookupHost. split; [| split].
  - intros m ms ->. reflexivity.
  - intros mx err ip ips -> ->. reflexivity.
  - intros mx err ips err' -> ->. reflexivity.
Qed.

(** C9 (the SMTP probe): after a successful dial, [tryHost] returns the
    error of the first failing step among greeting, MAIL FROM and RCPT TO
    and issues no later protocol command (only the deferred [Close]); when
    all three succeed it issues [Reset] and [Quit] and returns success.
    The result depends only on the answers to the dial and the three
    steps, never on those to [Reset], [Quit] or [Close]. *)
Theorem tryHost_first_error
  (smtp_answer : list smtp_cmd -> smtp_cmd -> option gostring)
  (host : gostring) (e : EmailAddress) (tr : list smtp_cmd) :
  let dial := Dial (host ++ runes_of ":25") in
  let hello := Hello (Domain e) in
  let mail := Mail (runes_of "hello@" ++ Domain e) in
  let rcpt := Rcpt (EmailAddress_String e) in
  tryHost smtp_answer host e tr =
  match smtp_answer tr dial with
  | Some err => (Some err, tr ++ [dial])
  | None =>
    match smtp_answer (tr ++ [dial]) hello with
    | Some err => (Some err, tr ++ [dial; hello; Close])
    | None =>
      match smtp_answer (tr ++ [dial; hello]) mail with
      | Some err => (Some err, tr ++ [dial; hello; mail; Close])
      | None =>
        match smtp_answer (tr ++ [dial; hello; mail]) rcpt with
        | Some err => (Some err, tr ++ [dial; hello; mail; rcpt; Close])
        | None => (None, tr ++ [dial; hello; mail; rcpt; Reset; Quit; Close])
        end
      end
    end
  end.
Proof.
  intros dial hello mail rcpt.
  unfold tryHost, bind, ret, issue. fold dial hello mail rcpt.
  destruct (smtp_answer tr dial); [reflexivity |].
  rewrite <- !app_assoc. simpl.
  destruct (smtp_answer (tr ++ [dial]) hello); [rewrite <- !app_assoc; reflexivity |].
  rewrite <- !app_assoc. simpl.
  destruct (smtp_answer (tr ++ [dial; hello]) mail);
    [rewrite <- !app_assoc; reflexivity |].
  rewrite <- !app_assoc. simpl.
  destruct (smtp_answer (tr ++ [dial; hello; mail]) rcpt);
    rewrite <- !app_assoc; reflexivity.
Qed.

(** C10 (indexing the lookup results): [lookupHost] panics exactly when a
    lookup it relies on reports no error but returns no record; it is
    panic-free precisely under the precondition that an error-free MX
    lookup, and (after a failed MX lookup) an error-free IP lookup,
    return at least one record. *)
Theorem lookupHost_no_panic_iff
  (LookupMX : gostring -> list MX * option gostring)
  (LookupIP : gostring -> list IP * option gostring)
  (IP_String : IP -> gostring) (d : gostring) :
  lookupHost LookupMX LookupIP IP_String d <> Panic <->
  ((snd (LookupMX d) = None -> fst (LookupMX d) <> [])
   /\ (snd (LookupMX d) <> None ->
       snd (LookupIP d) = None -> fst (LookupIP d) <> [])).
Proof.
  unfold lookupHost.
  destruct (LookupMX d) as [mx [err |]]; simpl.
  - destruct (LookupIP d) as [ips [err' |]]; simpl.
    + split; [intros _; split; intros; discriminate | intros _; discriminate].
    + destruct ips as [| ip ips]; split.
      * intros H. exfalso. exact (H eq_refl).
      * intros [_ H]. exfalso. apply (H ltac:(discriminate) eq_refl eq_refl).
      * intros _. split; intros; [discriminate | discriminate].
      * intros _. discriminate.
  - destruct mx as [| m mx]; split.
    + intros H. exfalso. exact (H eq_refl).
    + intros [H _]. exfalso. exact (H eq_refl eq_refl).
    + intros _. split; [intros _; discriminate | intros H; exfalso; exact (H eq_refl)].
    + intros _. discriminate.
Qed.

(** * The matcher against the reference semantics *)

Section MatcherSemantics.

Variable len0 : nat.

(** Soundness: what [mtch] accepts is in the language. *)
Lemma mtch_sound (r : regex) :
  forall s k x, mtch len0 r s k = Some x ->
  exists p s', s = p ++ s' /\ lang len0 r p s' /\ k s' = Some x.
Proof.
  induction r as [| rs | r1 IH1 r2 IH2 | r1 IH1 r2 IH2 | r1 IH1 | |];
    intros s k x H; cbn [mtch] in H.
  - exists [], s. repeat split; [constructor | exact H].
  - destruct s as [| c s']; [discriminate |].
    destruct (fold_class rs c) eqn:Ec; [| discriminate].
    exists [c], s'. repeat split; [constructor; exact Ec | exact H].
  - destruct (IH1 _ _ _ H) as (p1 & s1 & -> & L1 & H1).
    destruct (IH2 _ _ _ H1) as (p2 & s2 & -> & L2 & H2).
    exists (p1 ++ p2), s2. rewrite app_assoc. repeat split; auto.
    constructor; assumption.
  - destruct (mtch len0 r1 s k) eqn:E.
    + injection H as <-. destruct (IH1 _ _ _ E) as (p & s' & -> & L & Hk).
      exists p, s'. repeat split; auto. apply lang_alt_l. exact L.
    + destruct (IH2 _ _ _ H) as (p & s' & -> & L & Hk).
      exists p, s'. repeat split; auto. apply lang_alt_r. exact L.
  - revert H. generalize (S (length s)) as n. intros n. revert s.
    induction n as [| n IHn]; intros s H; simpl in H.
    + exists [], s. repeat split; [do 2 constructor | exact H].
    + destruct (mtch len0 r1 s _) eqn:E.
      * injection H as <-.
        destruct (IH1 _ _ _ E) as (p1 & s1 & -> & L1 & H1).
        destruct (length s1 <? length (p1 ++ s1)) eqn:Elt; [| discriminate].
        apply Nat.ltb_lt in Elt.
        destruct (IHn _ H1) as (p2 & s2 & -> & L2 & H2).
        assert (Ls : lang_star len0 r1 p2 s2) by (inversion L2; assumption).
        exists (p1 ++ p2), s2. rewrite app_assoc. repeat split; auto.
        constructor. constructor; auto.
        intros ->. simpl in Elt. lia.
      * exists [], s. repeat split; [do 2 constructor | exact H].
  - destruct (length s =? len0) eqn:E; [| discriminate].
    apply Nat.eqb_eq in E.
    exists [], s. repeat split; [constructor; exact E | exact H].
  - destruct s; [| discriminate].
    exists [], []. repeat split; [constructor | exact H].
Qed.

(** Completeness: a text in the language is accepted by [mtch] with any
    continuation that accepts the rest. *)
Lemma mtch_complete :
  forall r p s, lang len0 r p s ->
  forall k, k s <> None -> mtch len0 r (p ++ s) k <> None.
Proof.
  apply (lang_mut len0
    (fun r p s _ => forall k, k s <> None -> mtch len0 r (p ++ s) k <> None)
    (fun r p s _ => forall k n, k s <> None -> length (p ++ s) < n ->
                    star_loop (mtch len0 r) k n (p ++ s) <> None)).
  - intros s k Hk. exact Hk.
  - intros rs c s Hc k Hk. simpl. rewrite Hc. exact Hk.
  - intros r1 r2 p1 p2 s L1 IH1 L2 IH2 k Hk. cbn [mtch].
    rewrite <- app_assoc. apply IH1. apply IH2. exact Hk.
  - intros r1 r2 p s L IH k Hk. cbn [mtch].
    destruct (mtch len0 r1 (p ++ s) k) eqn:E; [discriminate |].
    exfalso. exact (IH k Hk E).
  - intros r1 r2 p s L IH k Hk. cbn [mtch].
    destruct (mtch len0 r1 (p ++ s) k); [discriminate | exact (IH k Hk)].
  - intros r p s L IH k Hk. cbn [mtch]. apply IH; [exact Hk | lia].
  - intros s Hs k Hk. cbn [mtch app]. rewrite Hs, Nat.eqb_refl. exact Hk.
  - intros k Hk. exact Hk.
  - intros r s k n Hk Hn. destruct n as [| n]; [simpl in Hn; lia |].
    cbn [star_loop app].
    destruct (mtch len0 r s _); [discriminate | exact Hk].
  - intros r p1 p2 s Hne L1 IH1 L2 IH2 k n Hk Hn.
    destruct n as [| n]; [simpl in Hn; lia |].
    cbn [star_loop]. rewrite <- app_assoc.
    destruct (mtch len0 r (p1 ++ p2 ++ s) _) eqn:E; [discriminate |].
    exfalso. refine (IH1 _ _ E). cbv beta.
    assert (Hlt : length (p2 ++ s) < length (p1 ++ p2 ++ s)).
    { rewrite !length_app. destruct p1; [contradiction | simpl; lia]. }
    apply Nat.ltb_lt in Hlt. rewrite Hlt.
    apply IH2; [exact Hk |].
    rewrite <- app_assoc, !length_app in Hn. rewrite length_app.
    destruct p1; [contradiction | simpl in Hn; lia].
Qed.

End MatcherSemantics.

(** Without anchors, a match does not depend on the text around it. *)
Lemma lang_anchor_free (len0 : nat) :
  forall r p s, lang len0 r p s -> anchor_free r = true ->
  forall len0' s', lang len0' r p s'.
Proof.
  apply (lang_mut len0
    (fun r p s _ => anchor_free r = true -> forall len0' s', lang len0' r p s')
    (fun r p s _ => anchor_free r = true ->
                    forall len0' s', lang_star len0' r p s'));
    simpl; intros; try discriminate.
  - constructor.
  - constructor; assumption.
  - apply andb_true_iff in H1 as [A1 A2]. constructor; auto.
  - apply andb_true_iff in H0 as [A1 A2]. apply lang_alt_l; auto.
  - apply andb_true_iff in H0 as [A1 A2]. apply lang_alt_r; auto.
  - constructor; auto.
  - constructor.
  - constructor; auto.
Qed.

(** Every code point matched by a regex with ASCII classes is ASCII or a
    case-folding partner of [k] or [s]. *)
Lemma fold_class_ascii (rs : list (N * N)) (c : rune) :
  forallb (fun '(_, hi) => (hi <=? 127)%N) rs = true ->
  fold_class rs c = true -> ascii_or_fold c.
Proof.
  unfold fold_class, ascii_or_fold. intros Hrs Hc.
  apply orb_true_iff in Hc as [Hc | Hc].
  - left. unfold in_ranges in Hc. apply existsb_exists in Hc as [[lo hi] [Hin Hc]].
    rewrite forallb_forall in Hrs. specialize (Hrs _ Hin). simpl in Hrs.
    apply andb_true_iff in Hc as [_ Hc].
    apply N.leb_le in Hrs, Hc. lia.
  - unfold fold_orbit in Hc.
    destruct ((65 <=? c) && (c <=? 90))%N eqn:E1.
    + apply andb_true_iff in E1 as [_ E1]. apply N.leb_le in E1. left. lia.
    + destruct ((97 <=? c) && (c <=? 122))%N eqn:E2.
      * apply andb_true_iff in E2 as [_ E2]. apply N.leb_le in E2. left. lia.
      * destruct (c =? 8490)%N eqn:E3; [apply N.eqb_eq in E3; auto |].
        destruct (c =? 383)%N eqn:E4; [apply N.eqb_eq in E4; auto |].
        discriminate.
Qed.

Lemma lang_ascii (len0 : nat) :
  forall r p s, lang len0 r p s -> classes_ascii r = true ->
  Forall ascii_or_fold p.
Proof.
  apply (lang_mut len0
    (fun r p s _ => classes_ascii r = true -> Forall ascii_or_fold p)
    (fun r p s _ => classes_ascii r = true -> Forall ascii_or_fold p));
    simpl; intros; try (constructor; fail).
  - constructor; [| constructor]. exact (fold_class_ascii _ _ H e).
  - apply andb_true_iff in H1 as [A1 A2]. apply Forall_app; auto.
  - apply andb_true_iff in H0 as [A1 A2]. auto.
  - apply andb_true_iff in H0 as [A1 A2]. auto.
  - auto.
  - apply Forall_app; auto.
Qed.

Section PatternFacts.

Lemma lang_cat_inv (n : nat) (r1 r2 : regex) (p s : gostring) :
  lang n (Cat r1 r2) p s ->
  exists p1 p2, p = p1 ++ p2 /\ lang n r1 p1 (p2 ++ s) /\ lang n r2 p2 s.
Proof. intros H. inversion H; subst. eauto. Qed.

Lemma lang_cls_inv (n : nat) (rs : list (N * N)) (p s : gostring) :
  lang n (Cls rs) p s -> exists c, p = [c] /\ fold_class rs c = true.
Proof. intros H. inversion H; subst. eauto. Qed.

(** The local part of the pattern never matches the empty string. *)
Lemma local_part_nonempty (n : nat) (p s : gostring) :
  lang n Pattern.local_part p s -> p <> [].
Proof.
  unfold Pattern.local_part, Plus. intros H.
  inversion H as [| | | ? ? ? ? H1 | ? ? ? ? H1 | | |]; subst.
  - apply lang_cat_inv in H1 as (pa & pb & -> & Ha & _).
    apply lang_cat_inv in Ha as (pc & pd & -> & Hc & _).
    apply lang_cls_inv in Hc as (c & -> & _). discriminate.
  - apply lang_cat_inv in H1 as (pa & pb & -> & Ha & _).
    unfold Pattern.dquote, Lit in Ha.
    apply lang_cls_inv in Ha as (c & -> & _). discriminate.
Qed.

(** A string accepted by [validEmailRegexp] is matched as a whole. *)
Lemma valid_whole (s : gostring) :
  MatchString validEmailRegexp s = true -> lang (length s) validEmailRegexp s [].
Proof.
  intros H. destruct (MatchString_split _ _ H) as (pre & m & rest & Hs & Hm).
  destruct (mtch_sound _ _ _ _ _ Hm) as (p & s' & Heq & L & Hk).
  injection Hk as ->. apply app_inv_tail in Heq. subst p.
  assert (L0 := L). unfold validEmailRegexp in L0.
  apply lang_cat_inv in L0 as (pb & p2 & -> & Lb & L2).
  inversion Lb as [| | | | | | s0 Hlen Hpb Hs0 |]; subst.
  apply lang_cat_inv in L2 as (pL & p3 & -> & _ & L3).
  apply lang_cat_inv in L3 as (pA & p4 & -> & _ & L4).
  apply lang_cat_inv in L4 as (pS & pE & -> & _ & LE).
  inversion LE; subst.
  assert (Hpre : pre = []).
  { destruct pre; [reflexivity |]. exfalso. rewrite !length_app in Hlen.
    simpl in Hlen. repeat rewrite length_app in Hlen. lia. }
  subst pre. clear - L. simpl in *. rewrite !app_nil_r in *. exact L.
Qed.

(** A match of [findEmailRegexp] is accepted whole by [validEmailRegexp]. *)
Lemma find_match_valid (len0 : nat) (m rest : gostring) :
  mtch len0 findEmailRegexp (m ++ rest) (fun t => Some t) = Some rest ->
  MatchString validEmailRegexp m = true.
Proof.
  intros H. destruct (mtch_sound _ _ _ _ _ H) as (p & s' & Heq & L & Hk).
  injection Hk as ->. apply app_inv_tail in Heq. subst p.
  unfold findEmailRegexp in L.
  apply lang_cat_inv in L as (pL & p2 & -> & LL & L2).
  apply lang_cat_inv in L2 as (pA & pD & -> & LA & LD).
  set (t := pL ++ pA ++ pD).
  assert (Hl : lang (length t) validEmailRegexp t []).
  { assert (E : t = [] ++ (pL ++ (pA ++ (pD ++ []))))
      by (unfold t; simpl; rewrite app_nil_r; reflexivity).
    rewrite E at 2. unfold validEmailRegexp. apply lang_cat.
    - apply lang_begin. unfold t. rewrite !app_nil_r. reflexivity.
    - apply lang_cat; [eapply lang_anchor_free; [exact LL | reflexivity] |].
      apply lang_cat; [eapply lang_anchor_free; [exact LA | reflexivity] |].
      apply lang_cat; [| constructor].
      constructor. destruct pD as [| d pD']; [constructor |].
      rewrite <- (app_nil_r (d :: pD')). apply star_cons.
      + discriminate.
      + eapply lang_anchor_free; [exact LD | reflexivity].
      + constructor. }
  pose proof (mtch_complete _ _ _ _ Hl (fun t => Some t) ltac:(discriminate))
    as Hc.
  rewrite app_nil_r in Hc. unfold MatchString. rewrite search_from_eq.
  destruct (mtch (length t) validEmailRegexp t _); [reflexivity | contradiction].
Qed.

Lemma all_matches_mtch (len0 : nat) (r : regex) :
  forall fuel b s m, In m (all_matches len0 r fuel b s) ->
  exists rest, mtch len0 r (m ++ rest) (fun t => Some t) = Some rest.
Proof.
  induction fuel as [| fuel IH]; intros b s m Hin; simpl in Hin; [contradiction |].
  destruct (search_from len0 r s) as [[[pre m'] rest] |] eqn:E; [| contradiction].
  destruct (search_from_split _ _ _ _ _ _ E) as [_ Hm].
  destruct pre as [| c pre]; [destruct m' as [| c' m'] |].
  - assert (Hacc : In m (if b then [] else [[]]) -> m = []).
    { destruct b; simpl; [contradiction | intros [<- | []]; reflexivity]. }
    destruct rest as [| c rest].
    + apply Hacc in Hin. subst m. eauto.
    + apply in_app_or in Hin as [Hin | Hin]; [apply Hacc in Hin; subst m; eauto |].
      exact (IH _ _ _ Hin).
  - destruct Hin as [<- | Hin]; [eauto | exact (IH _ _ _ Hin)].
  - destruct Hin as [<- | Hin]; [eauto | exact (IH _ _ _ Hin)].
Qed.

Lemma FindAll_parses_helper (h r : gostring) :
  In r (FindAll findEmailRegexp h) ->
  exists e, Parse r = Ok e /\ EmailAddress_String e = r.
Proof.
  intros Hin. destruct (all_matches_mtch _ _ _ _ _ _ Hin) as [rest Hm].
  apply find_match_valid in Hm.
  destruct (Parse_matched r Hm) as (i & Hlt & Hat & _ & Hp).
  eexists. split; [exact Hp |]. simpl. apply split_at_glue; assumption.
Qed.

Lemma map_String_parsed (rs : list gostring) :
  (forall r, In r rs -> exists e, Parse r = Ok e /\ EmailAddress_String e = r) ->
  map EmailAddress_String (parsed rs) = rs.
Proof.
  induction rs as [| r rs IH]; intros H; [reflexivity |].
  cbn [parsed flat_map]. destruct (H r (or_introl eq_refl)) as (e & He & Hs).
  rewrite He. simpl. rewrite Hs. f_equal. apply IH.
  intros r' Hin. apply H. right. exact Hin.
Qed.

Lemma all_matches_weave (len0 : nat) (r : regex) :
  forall fuel b s, exists g0 pieces,
    map fst pieces = all_matches len0 r fuel b s /\ s = weave g0 pieces.
Proof.
  unfold weave.
  induction fuel as [| fuel IH]; intros b s; simpl.
  - exists s, []. simpl. rewrite app_nil_r. auto.
  - destruct (search_from len0 r s) as [[[pre m] rest] |] eqn:E;
      [| exists s, []; simpl; rewrite app_nil_r; auto].
    destruct (search_from_split _ _ _ _ _ _ E) as [Hs _].
    destruct pre as [| c pre]; [destruct m as [| c' m] |].
    + simpl in Hs. subst rest. destruct s as [| c s].
      * destruct b; [exists [], [] | exists [], [([], [])]]; simpl; auto.
      * destruct (IH false s) as (g0 & pieces & Hp & Hw).
        destruct b.
        -- exists (c :: g0), pieces. simpl. rewrite Hp, Hw. auto.
        -- exists [], (([], c :: g0) :: pieces). simpl. rewrite Hp, Hw. auto.
    + destruct (IH true rest) as (g0 & pieces & Hp & Hw).
      exists [], ((c' :: m, g0) :: pieces). simpl. rewrite Hp. split; [reflexivity |].
      rewrite Hs, Hw. simpl. rewrite !app_assoc. reflexivity.
    + destruct (IH true rest) as (g0 & pieces & Hp & Hw).
      exists (c :: pre), ((m, g0) :: pieces). simpl. rewrite Hp. split; [reflexivity |].
      rewrite Hs, Hw. simpl. rewrite !app_assoc. reflexivity.
Qed.

End PatternFacts.

Section FindLoopFacts.

Variable LookupMX : gostring -> list MX * option gostring.
Variable LookupIP : gostring -> list IP * option gostring.
Variable IP_String : IP -> gostring.
Variable smtp_answer : list smtp_cmd -> smtp_cmd -> option gostring.

Lemma find_loop_false (results : list gostring) :
  forall emails tr,
  find_loop LookupMX LookupIP IP_String smtp_answer false results emails tr
  = (Ok (emails ++ parsed results), tr).
Proof.
  induction results as [| r results IH]; intros emails tr;
    cbn [find_loop parsed flat_map].
  - unfold ret. rewrite app_nil_r. reflexivity.
  - destruct (Parse_total r) as [[e He] | He]; rewrite He; rewrite IH;
      [rewrite <- app_assoc |]; reflexivity.
Qed.

Lemma find_loop_true_subseq (results : list gostring) :
  forall emails tr l tr',
  find_loop LookupMX LookupIP IP_String smtp_answer true results emails tr
  = (Ok l, tr') ->
  exists l1, l = emails ++ l1 /\ subseq l1 (parsed results).
Proof.
  induction results as [| r results IH]; intros emails tr l tr' H;
    cbn [find_loop parsed flat_map] in *.
  - unfold ret in H. injection H as <- _. exists []. split;
      [rewrite app_nil_r; reflexivity | constructor].
  - destruct (Parse r) as [e | msg |]; [| | unfold ret in H; discriminate].
    + unfold bind in H.
      destruct (ValidateHost _ _ _ _ e tr) as [[u | m |] tr1];
        [| | unfold ret in H; discriminate].
      * destruct (IH _ _ _ _ H) as (l1 & -> & Hs).
        exists (e :: l1). rewrite <- app_assoc. split; [reflexivity |].
        constructor. exact Hs.
      * destruct (IH _ _ _ _ H) as (l1 & -> & Hs).
        exists l1. split; [reflexivity |]. constructor. exact Hs.
    + exact (IH _ _ _ _ H).
Qed.

End FindLoopFacts.

(** * Further properties of the code *)

(** Every match of [findEmailRegexp] is accepted by [Parse], which gives
    back an address rendering to that match: the defensive [err == nil]
    check of [Find] never drops a candidate. *)
Theorem FindAll_matches_parse (h r : gostring) :
  In r (FindAll findEmailRegexp h) ->
  exists e, Parse r = Ok e /\ EmailAddress_String e = r.
Proof. exact (FindAll_parses_helper h r). Qed.

Lemma FindAll_matches_parse_witness :
  In (runes_of "info@domain.com") (FindAll findEmailRegexp demo_text)
  /\ exists e, Parse (runes_of "info@domain.com") = Ok e
     /\ EmailAddress_String e = runes_of "info@domain.com".
Proof.
  assert (Hin : In (runes_of "info@domain.com") (FindAll findEmailRegexp demo_text))
    by (vm_compute; right; left; reflexivity).
  split; [exact Hin | exact (FindAll_matches_parse _ _ Hin)].
Defined.

(** Without host validation, [Find] consults neither DNS nor SMTP, never
    panics, and returns one address per match of [findEmailRegexp], in
    order, each rendering to its match. *)
Theorem Find_no_validation_renders_matches
  (LookupMX : gostring -> list MX * option gostring)
  (LookupIP : gostring -> list IP * option gostring)
  (IP_String : IP -> gostring)
  (smtp_answer : list smtp_cmd -> smtp_cmd -> option gostring)
  (h : gostring) (tr : list smtp_cmd) :
  exists l, Find LookupMX LookupIP IP_String smtp_answer h false tr = (Ok l, tr)
    /\ map EmailAddress_String l = FindAll findEmailRegexp h.
Proof.
  exists (parsed (FindAll findEmailRegexp h)). split.
  - unfold Find. rewrite find_loop_false. reflexivity.
  - apply map_String_parsed. intros r Hin. exact (FindAll_parses_helper h r Hin).
Qed.

(** With host validation, [Find] returns (when it returns) a subsequence,
    in order, of what it returns without validation. *)
Theorem Find_validated_subseq
  (LookupMX : gostring -> list MX * option gostring)
  (LookupIP : gostring -> list IP * option gostring)
  (IP_String : IP -> gostring)
  (smtp_answer : list smtp_cmd -> smtp_cmd -> option gostring)
  (h : gostring) (tr : list smtp_cmd) (l : list EmailAddress) (tr' : list smtp_cmd) :
  Find LookupMX LookupIP IP_String smtp_answer h true tr = (Ok l, tr') ->
  exists l0, Find LookupMX LookupIP IP_String smtp_answer h false tr = (Ok l0, tr)
    /\ subseq l l0.
Proof.
  unfold Find. intros H.
  destruct (find_loop_true_subseq _ _ _ _ _ _ _ _ _ H) as (l1 & -> & Hs).
  exists (parsed (FindAll findEmailRegexp h)).
  rewrite find_loop_false. split; [reflexivity | exact Hs].
Qed.

(** An SMTP server rejecting every [RCPT TO]. *)
Definition reject_rcpt (tr : list smtp_cmd) (c : smtp_cmd) : option gostring :=
  match c with Rcpt _ => Some (runes_of "550") | _ => None end.

Lemma Find_validated_subseq_witness :
  Find demo_LookupMX demo_LookupIP demo_IP_String reject_rcpt demo_text true []
  = (Ok [],
     [Dial (runes_of "mx.:25"); Hello (runes_of "domain.com");
      Mail (runes_of "hello@domain.com"); Rcpt (runes_of "this@domain.com"); Close;
      Dial (runes_of "mx.:25"); Hello (runes_of "domain.com");
      Mail (runes_of "hello@domain.com"); Rcpt (runes_of "info@domain.com"); Close])
  /\ exists l0, Find demo_LookupMX demo_LookupIP demo_IP_String reject_rcpt
                  demo_text false [] = (Ok l0, []) /\ subseq [] l0.
Proof.
  assert (H : Find demo_LookupMX demo_LookupIP demo_IP_String reject_rcpt demo_text
                true []
              = (Ok [],
                 [Dial (runes_of "mx.:25"); Hello (runes_of "domain.com");
                  Mail (runes_of "hello@domain.com"); Rcpt (runes_of "this@domain.com");
                  Close;
                  Dial (runes_of "mx.:25"); Hello (runes_of "domain.com");
                  Mail (runes_of "hello@domain.com"); Rcpt (runes_of "info@domain.com");
                  Close])) by (vm_compute; reflexivity).
  split; [exact H | exact (Find_validated_subseq _ _ _ _ _ _ _ _ H)].
Defined.

(** [Parse] is stable under rendering: re-parsing the rendering of a
    parsed address gives the same address. *)
Theorem Parse_String_Parse (s : gostring) (e : EmailAddress) :
  Parse s = Ok e -> Parse (EmailAddress_String e) = Ok e.
Proof.
  intros H. destruct (Parse_Ok_inv s e H) as [-> _]. exact H.
Qed.

Lemma Parse_String_Parse_witness :
  Parse ([34%N] ++ runes_of "a@b" ++ [34%N] ++ runes_of "@c.com")
  = Ok (mkEmailAddress ([34%N] ++ runes_of "a@b" ++ [34%N]) (runes_of "c.com"))
  /\ Parse (EmailAddress_String
              (mkEmailAddress ([34%N] ++ runes_of "a@b" ++ [34%N]) (runes_of "c.com")))
     = Ok (mkEmailAddress ([34%N] ++ runes_of "a@b" ++ [34%N]) (runes_of "c.com")).
Proof.
  assert (H : Parse ([34%N] ++ runes_of "a@b" ++ [34%N] ++ runes_of "@c.com")
              = Ok (mkEmailAddress ([34%N] ++ runes_of "a@b" ++ [34%N])
                                   (runes_of "c.com")))
    by (vm_compute; reflexivity).
  split; [exact H | exact (Parse_String_Parse _ _ H)].
Defined.

(** [Parse] never returns an empty local part (the local-part pattern
    matches at least one character before an [@]). *)
Theorem Parse_local_part_nonempty (s : gostring) (e : EmailAddress) :
  Parse s = Ok e -> LocalPart e <> [].
Proof.
  intros H. destruct (Parse_Ok_inv s e H) as [_ Hm].
  pose proof (valid_whole s Hm) as L.
  destruct (Parse_matched s Hm) as (i & Hlt & Hat & Hlast & Hp).
  rewrite Hp in H. injection H as <-. simpl.
  unfold validEmailRegexp in L.
  apply lang_cat_inv in L as (pb & p2 & Hs & Lb & L2).
  inversion Lb; subst pb.
  apply lang_cat_inv in L2 as (pL & p3 & -> & LL & L3).
  apply lang_cat_inv in L3 as (pA & p4 & -> & LA & _).
  unfold Pattern.at_lit, Lit in LA.
  apply lang_cls_inv in LA as (c & -> & Hc). apply fold_class_at in Hc. subst c.
  apply local_part_nonempty in LL.
  assert (Hj : nth (length pL) s 0%N = at_sign).
  { rewrite Hs. simpl. rewrite app_nth2 by lia. rewrite Nat.sub_diag. reflexivity. }
  assert (Hjl : length pL < length s).
  { rewrite Hs. simpl. rewrite !length_app. simpl. lia. }
  assert (Hij : length pL <= i).
  { destruct (Nat.le_gt_cases (length pL) i) as [Hle | Hgt]; [exact Hle |].
    exfalso. exact (Hlast (length pL) (conj Hgt Hjl) Hj). }
  intros Hf. apply (f_equal (@length rune)) in Hf.
  rewrite length_firstn in Hf. simpl in Hf.
  destruct pL; [contradiction |]. simpl in Hij. lia.
Qed.

Lemma Parse_local_part_nonempty_witness :
  Parse (runes_of "x@y.z") = Ok (mkEmailAddress (runes_of "x") (runes_of "y.z"))
  /\ LocalPart (mkEmailAddress (runes_of "x") (runes_of "y.z")) <> [].
Proof.
  assert (H : Parse (runes_of "x@y.z")
              = Ok (mkEmailAddress (runes_of "x") (runes_of "y.z")))
    by (vm_compute; reflexivity).
  split; [exact H | exact (Parse_local_part_nonempty _ _ H)].
Defined.

(** [validEmailRegexp] accepts only ASCII code points, plus U+017F and
    U+212A, which [(?i)] folds into [s] and [k]: these two non-ASCII
    characters do get through. *)
Theorem valid_accepts_ascii_or_fold (s : gostring) :
  MatchString validEmailRegexp s = true -> Forall ascii_or_fold s.
Proof.
  intros H. exact (lang_ascii _ _ _ _ (valid_whole s H) eq_refl).
Qed.

Lemma valid_accepts_ascii_or_fold_witness :
  MatchString validEmailRegexp ([8490%N] ++ runes_of "@a.bc") = true
  /\ Forall ascii_or_fold ([8490%N] ++ runes_of "@a.bc").
Proof.
  assert (H : MatchString validEmailRegexp ([8490%N] ++ runes_of "@a.bc") = true)
    by (vm_compute; reflexivity).
  split; [exact H | exact (valid_accepts_ascii_or_fold _ H)].
Defined.

(** The matches [Find] starts from occur in the haystack from left to
    right without overlapping: the haystack is a gap followed by
    (match, gap) pieces. *)
Theorem FindAll_in_order_disjoint (h : gostring) :
  exists g0 pieces, map fst pieces = FindAll findEmailRegexp h
    /\ h = weave g0 pieces.
Proof. apply all_matches_weave. Qed.

(** When both DNS lookups fail, [ValidateHost] returns [lookupHost]'s
    error naming the domain and issues no SMTP command. *)
Theorem ValidateHost_unresolved_no_smtp
  (LookupMX : gostring -> list MX * option gostring)
  (LookupIP : gostring -> list IP * option gostring)
  (IP_String : IP -> gostring)
  (smtp_answer : list smtp_cmd -> smtp_cmd -> option gostring)
  (e : EmailAddress) (tr : list smtp_cmd) mx err ips err' :
  LookupMX (Domain e) = (mx, Some err) ->
  LookupIP (Domain e) = (ips, Some err') ->
  ValidateHost LookupMX LookupIP IP_String smtp_answer e tr
  = (Err (runes_of "failed finding MX and A records for domain " ++ Domain e), tr).
Proof.
  intros Hmx Hip. unfold ValidateHost, lookupHost. rewrite Hmx, Hip. reflexivity.
Qed.

Definition dns_down (d : gostring) : list MX * option gostring :=
  ([], Some (runes_of "no such host")).
Definition dns_down_ip (d : gostring) : list IP * option gostring :=
  ([], Some (runes_of "no such host")).

Lemma ValidateHost_unresolved_no_smtp_witness :
  ValidateHost dns_down dns_down_ip demo_IP_String demo_smtp_answer
    (mkEmailAddress (runes_of "fake") (runes_of "foo.foobar")) []
  = (Err (runes_of "failed finding MX and A records for domain "
          ++ runes_of "foo.foobar"), []).
Proof.
  exact (ValidateHost_unresolved_no_smtp dns_down dns_down_ip demo_IP_String
           demo_smtp_answer _ [] [] (runes_of "no such host") []
           (runes_of "no such host") eq_refl eq_refl).
Defined.

(** When the MX lookup succeeds, the first SMTP command of [ValidateHost]
    dials port 25 of the first MX host. *)
Theorem ValidateHost_dials_first_mx
  (LookupMX : gostring -> list MX * option gostring)
  (LookupIP : gostring -> list IP * option gostring)
  (IP_String : IP -> gostring)
  (smtp_answer : list smtp_cmd -> smtp_cmd -> option gostring)
  (e : EmailAddress) (tr : list smtp_cmd) (m : MX) (ms : list MX) :
  LookupMX (Domain e) = (m :: ms, None) ->
  exists t, snd (ValidateHost LookupMX LookupIP IP_String smtp_answer e tr)
            = tr ++ Dial (Host m ++ runes_of ":25") :: t.
Proof.
  intros Hmx. unfold ValidateHost, lookupHost. rewrite Hmx.
  unfold bind, ret, tryHost, bind, ret, issue.
  destruct (smtp_answer tr _); [eexists; reflexivity |].
  rewrite <- !app_assoc.
  repeat match goal with
         | |- context [match smtp_answer ?a ?b with _ => _ end] =>
             destruct (smtp_answer a b)
         end; simpl; rewrite <- ?app_assoc; simpl; eexists; reflexivity.
Qed.

Lemma ValidateHost_dials_first_mx_witness :
  exists t, snd (ValidateHost demo_LookupMX demo_LookupIP demo_IP_String
                   demo_smtp_answer (mkEmailAddress (runes_of "a") (runes_of "b.c")) [])
            = [] ++ Dial (runes_of "mx." ++ runes_of ":25") :: t.
Proof.
  exact (ValidateHost_dials_first_mx demo_LookupMX demo_LookupIP demo_IP_String
           demo_smtp_answer (mkEmailAddress (runes_of "a") (runes_of "b.c")) []
           (mkMX (runes_of "mx.") 10) [] eq_refl).
Defined.

(** [tryHost]'s first SMTP command dials port 25 of the host. If the dial
    fails nothing else is sent; otherwise the deferred [Close] is the last
    command sent and is sent exactly once. *)
Theorem tryHost_closes_connection
  (smtp_answer : list smtp_cmd -> smtp_cmd -> option gostring)
  (host : gostring) (e : EmailAddress) (tr : list smtp_cmd) :
  exists t, snd (tryHost smtp_answer host e tr)
            = tr ++ Dial (host ++ runes_of ":25") :: t
    /\ (smtp_answer tr (Dial (host ++ runes_of ":25")) <> None -> t = [])
    /\ (smtp_answer tr (Dial (host ++ runes_of ":25")) = None ->
        exists mid, t = mid ++ [Close] /\ ~ In Close mid).
Proof.
  unfold tryHost, bind, ret, issue.
  destruct (smtp_answer tr (Dial (host ++ runes_of ":25"))) eqn:Hd.
  - exists []. split; [reflexivity |]. split; [reflexivity | discriminate].
  - rewrite <- !app_assoc.
    repeat match goal with
           | |- context [match smtp_answer ?a ?b with _ => _ end] =>
               destruct (smtp_answer a b)
           end; simpl; rewrite <- ?app_assoc; simpl;
      eexists; (split; [reflexivity |]); (split; [congruence |]);
      intros _;
      match goal with
      | |- exists mid, ?L = mid ++ _ /\ _ => exists (removelast L)
      end; (split; [reflexivity |]); simpl; intuition discriminate.
Qed.

(** The domain [Parse] returns contains no [@]: the split is at the last
    one. *)
Theorem Parse_domain_no_at (s : gostring) (e : EmailAddress) :
  Parse s = Ok e -> ~ In at_sign (Domain e).
Proof.
  intros H. destruct (Parse_Ok_inv s e H) as [_ Hm].
  destruct (Parse_matched s Hm) as (i & _ & _ & Hlast & Hp).
  rewrite Hp in H. injection H as <-. exact (no_at_after s i Hlast).
Qed.

Lemma Parse_domain_no_at_witness :
  Parse ([34%N] ++ runes_of "a@b" ++ [34%N] ++ runes_of "@c.com")
  = Ok (mkEmailAddress ([34%N] ++ runes_of "a@b" ++ [34%N]) (runes_of "c.com"))
  /\ ~ In at_sign (runes_of "c.com").
Proof.
  assert (H : Parse ([34%N] ++ runes_of "a@b" ++ [34%N] ++ runes_of "@c.com")
              = Ok (mkEmailAddress ([34%N] ++ runes_of "a@b" ++ [34%N]) (runes_of "c.com")))
    by (vm_compute; reflexivity).
  split; [exact H | exact (Parse_domain_no_at _ _ H)].
Defined.

(** When the MX lookup fails and the A lookup succeeds, the first SMTP
    command of [ValidateHost] dials port 25 of the first address, as
    rendered by [IP.String]. *)
Theorem ValidateHost_dials_first_ip
  (LookupMX : gostring -> list MX * option gostring)
  (LookupIP : gostring -> list IP * option gostring)
  (IP_String : IP -> gostring)
  (smtp_answer : list smtp_cmd -> smtp_cmd -> option gostring)
  (e : EmailAddress) (tr : list smtp_cmd) mx err (ip : IP) (ips : list IP) :
  LookupMX (Domain e) = (mx, Some err) ->
  LookupIP (Domain e) = (ip :: ips, None) ->
  exists t, snd (ValidateHost LookupMX LookupIP IP_String smtp_answer e tr)
            = tr ++ Dial (IP_String ip ++ runes_of ":25") :: t.
Proof.
  intros Hmx Hip. unfold ValidateHost, lookupHost. rewrite Hmx, Hip.
  unfold bind, ret, tryHost, bind, ret, issue.
  destruct (smtp_answer tr _); [eexists; reflexivity |].
  rewrite <- !app_assoc.
  repeat match goal with
         | |- context [match smtp_answer ?a ?b with _ => _ end] =>
             destruct (smtp_answer a b)
         end; simpl; rewrite <- ?app_assoc; simpl; eexists; reflexivity.
Qed.

Lemma ValidateHost_dials_first_ip_witness :
  exists t, snd (ValidateHost dns_down demo_LookupIP demo_IP_String
                   demo_smtp_answer (mkEmailAddress (runes_of "a") (runes_of "b.c")) [])
            = [] ++ Dial (runes_of "127.0.0.1" ++ runes_of ":25") :: t.
Proof.
  exact (ValidateHost_dials_first_ip dns_down demo_LookupIP demo_IP_String
           demo_smtp_answer (mkEmailAddress (runes_of "a") (runes_of "b.c")) []
           [] (runes_of "no such host") _ _ eq_refl eq_refl).
Defined.
